(** * A replicated auction: replica state machine and coordinator

    Shallow embedding of [main.go] (the replica server) and of
    [coordinator.go] (the coordinator client), with the properties of the
    design document proved, amended or refuted against them.

    Conventions of the embedding:
    - Go's [int] is a 64-bit signed integer.  The program never does
      arithmetic on bid amounts (it compares and stores them), so they are
      carried as [Z]; the only place a value is forced into the 64-bit range
      is the conversion [int(amount)], written out in [int_of_float64].
    - [map[string]int] and [map[string]interface{}] are [gmap string _].
    - Every handler body of the replica runs with [auction.mutex] held, so a
      handler is one atomic transition of the [Auction] record; the order of
      the transitions is the order in which the lock was acquired.
    - The logger, the network and the clock are effects: log lines are
      returned as data, network results and clock readings are inputs. *)

From stdpp Require Import gmap strings list fin_maps sorting.
From Stdlib Require Import ZArith Lia Ascii.

Open Scope string_scope.
Open Scope list_scope.
Open Scope Z_scope.

(** ** Values shared by both programs *)

(** A finite IEEE-754 binary64 number, the only kind [encoding/json] can
    produce: its value is [fmant * 2 ^ fexp] (the sign is the sign of
    [fmant]; [|fmant| < 2^53] for a real binary64, which nothing below
    relies on). *)
Record float64 := Float64 { fmant : Z; fexp : Z }.

(** The float64 that a decimal integer literal of the wire decodes to
    (exact below 2^53). *)
Definition float64_of_int (z : Z) : float64 := {| fmant := z; fexp := 0 |}.

Definition min_int : Z := - 2 ^ 63.
Definition max_int : Z := 2 ^ 63 - 1.

(** The mathematical value of [f] with its fraction discarded. *)
Definition trunc_float64 (f : float64) : Z :=
  if 0 <=? fexp f then fmant f * 2 ^ fexp f
  else Z.quot (fmant f) (2 ^ (- fexp f)).

(** Go's conversion [int(amount)]: truncation towards zero.  When the
    truncated value does not fit in 64 bits the language leaves the result
    to the implementation; gc on amd64 yields the least int, which is what
    is written here. *)
Definition int_of_float64 (f : float64) : Z :=
  let t := trunc_float64 f in
  if (min_int <=? t) && (t <=? max_int) then t else min_int.

(** The dynamic values a Go [interface{}] holds in these programs: what
    [encoding/json] decodes into, and what the handlers encode. *)
#[warnings="-register-all"] Inductive any : Type :=
  | ANil
  | ABool (b : bool)
  | AFloat64 (f : float64)
  | AInt (z : Z)
  | AString (s : string)
  | ASlice (l : list any)
  | AObject (l : list (string * any)).

(** The type assertions [v.(string)] and [v.(float64)] on a map element;
    a missing key yields the nil interface, on which both fail. *)
Definition assert_string (v : option any) : option string :=
  match v with Some (AString s) => Some s | _ => None end.

Definition assert_float64 (v : option any) : option float64 :=
  match v with Some (AFloat64 f) => Some f | _ => None end.

(** The body of an HTTP response. *)
Inductive body : Type :=
  | Text (s : string)                    (* written by http.Error *)
  | JsonStrings (m : gmap string string) (* an encoded map[string]string *)
  | JsonValues (m : gmap string any).    (* an encoded map[string]interface{} *)

Record response := Response { code : Z; payload : body }.

Definition StatusOK : Z := 200.
Definition StatusBadRequest : Z := 400.
Definition StatusMethodNotAllowed : Z := 405.

(** [http.Error(w, msg, code)]. *)
Definition http_Error (msg : string) (c : Z) : response :=
  {| code := c; payload := Text (msg ++ String "010"%char "") |}.

(** ** The replica: main.go *)

Module Replica.

Record Auction := mkAuction {
  startTime     : Z;               (* nanoseconds *)
  duration      : Z;               (* nanoseconds *)
  highestBid    : Z;
  highestBidder : string;
  bidders       : gmap string Z;
  status        : string           (* "ongoing" or "ended" *)
}.

Definition Second : Z := 1000000000.

(** The package-level variable [auction], created when the process starts
    at time [now]. *)
Definition auction (now : Z) : Auction :=
  {| startTime := now;
     duration := 100 * Second;
     highestBid := 0;
     highestBidder := "";
     bidders := ∅;
     status := "ongoing" |}.

Definition set_highestBid (v : Z) (a : Auction) : Auction :=
  mkAuction (startTime a) (duration a) v (highestBidder a) (bidders a) (status a).

Definition set_highestBidder (n : string) (a : Auction) : Auction :=
  mkAuction (startTime a) (duration a) (highestBid a) n (bidders a) (status a).

Definition set_bidder (n : string) (v : Z) (a : Auction) : Auction :=
  mkAuction (startTime a) (duration a) (highestBid a) (highestBidder a)
            (<[n := v]> (bidders a)) (status a).

Definition set_status (s : string) (a : Auction) : Auction :=
  mkAuction (startTime a) (duration a) (highestBid a) (highestBidder a)
            (bidders a) s.

(** Lines written to the log file, with the arguments of their format. *)
Inductive log_line : Type :=
  | LogDecodeFailed
  | LogInvalidBid
  | LogFailEnded (name : string) (amount : float64)
  | LogFailTooLow (name : string) (amount : float64) (highest : Z)
  | LogBidSuccess (name : string) (amount : Z)
  | LogQuerySuccess (st : string) (highest : Z) (bidder : string)
  | LogAuctionEnded (winner : string) (highest : Z).

(** What a handler leaves behind: the auction, the response written (none
    for the timer) and the lines logged. *)
Record outcome := Outcome {
  st   : Auction;
  resp : option response;
  logs : list log_line
}.

(** An inbound request: its method and what
    [json.NewDecoder(r.Body).Decode(&body)] makes of its body, [None] when
    the decoder returns an error. *)
Record request := Request {
  method  : string;
  decoded : option (gmap string any)
}.

Definition ended_body : gmap string string :=
  {[ "outcome" := "auction ended" ]}.

Definition fail_reason : string := "bid must be higher than current highest bid".

Definition fail_body : gmap string string :=
  <[ "reason" := fail_reason ]> {[ "outcome" := "fail" ]}.

Definition success_body : gmap string string :=
  {[ "outcome" := "success" ]}.

Definition json_ok (m : gmap string string) : response :=
  {| code := StatusOK; payload := JsonStrings m |}.

(** [handleBid], lines 42-63: the method check, the decoding of the body
    and the validation of its two fields.  The auction is not an argument:
    nothing here reads or writes it. *)
Definition parseBid (r : request)
  : (response * list log_line) + (string * float64) :=
  if negb (String.eqb (method r) "POST") then
    inl (http_Error "Invalid method" StatusMethodNotAllowed, [])
  else
    match decoded r with
    | None => inl (http_Error "Invalid request" StatusBadRequest, [LogDecodeFailed])
    | Some m =>
        match assert_string (m !! "name"), assert_float64 (m !! "amount") with
        | Some name, Some amount => inr (name, amount)
        | _, _ =>
            inl (http_Error "Invalid name or amount" StatusBadRequest, [LogInvalidBid])
        end
    end.

(** [handleBid], lines 77-80: register the bidder if not already
    registered. *)
Definition register (name : string) (a : Auction) : Auction :=
  match bidders a !! name with
  | Some _ => a
  | None => set_bidder name 0 a
  end.

(** [handleBid], lines 65-101: the part that runs with the lock held. *)
Definition placeBid (a : Auction) (name : string) (amount : float64) : outcome :=
  if String.eqb (status a) "ended" then
    {| st := a; resp := Some (json_ok ended_body);
       logs := [LogFailEnded name amount] |}
  else
    let a := register name a in
    if int_of_float64 amount <=? highestBid a then
      {| st := a; resp := Some (json_ok fail_body);
         logs := [LogFailTooLow name amount (highestBid a)] |}
    else
      let a := set_highestBid (int_of_float64 amount) a in
      let a := set_highestBidder name a in
      let a := set_bidder name (int_of_float64 amount) a in
      {| st := a; resp := Some (json_ok success_body);
         logs := [LogBidSuccess name (int_of_float64 amount)] |}.

Definition handleBid (a : Auction) (r : request) : outcome :=
  match parseBid r with
  | inl (rsp, l) => {| st := a; resp := Some rsp; logs := l |}
  | inr (name, amount) => placeBid a name amount
  end.

(** [int(d.Seconds())] for a duration of whole seconds such as the
    configured one. *)
Definition seconds (d : Z) : Z := Z.quot d Second.

(** [handleQuery]; [elapsed] is the clock reading
    [int(time.Since(auction.startTime).Seconds())]. *)
Definition handleQuery (a : Auction) (m : string) (elapsed : Z) : outcome :=
  if negb (String.eqb m "GET") then
    {| st := a; resp := Some (http_Error "Invalid method" StatusMethodNotAllowed);
       logs := [] |}
  else
    let response : gmap string any :=
      <[ "time_remaining" := AInt (seconds (duration a) - elapsed) ]>
      (<[ "highest_bidder" := AString (highestBidder a) ]>
      (<[ "highest_bid" := AInt (highestBid a) ]>
      {[ "status" := AString (status a) ]})) in
    let response :=
      if String.eqb (status a) "ended"
      then <[ "winner" := AString (highestBidder a) ]> response
      else response in
    {| st := a;
       resp := Some {| code := StatusOK; payload := JsonValues response |};
       logs := [LogQuerySuccess (status a) (highestBid a) (highestBidder a)] |}.

(** [endAuction] once its sleep is over: the body run with the lock held. *)
Definition endAuction (a : Auction) : outcome :=
  let a := set_status "ended" a in
  {| st := a; resp := None;
     logs := [LogAuctionEnded (highestBidder a) (highestBid a)] |}.

(** The operations that can reach the auction of one replica. *)
Inductive event : Type :=
  | EBid (r : request)
  | EQuery (m : string) (elapsed : Z)
  | EEnd.

Definition step (a : Auction) (e : event) : outcome :=
  match e with
  | EBid r => handleBid a r
  | EQuery m elapsed => handleQuery a m elapsed
  | EEnd => endAuction a
  end.

(** A run: the events in lock-acquisition order, each with its outcome. *)
Fixpoint run (a : Auction) (es : list event) : list (event * outcome) :=
  match es with
  | [] => []
  | e :: es => let o := step a e in (e, o) :: run (st o) es
  end.

Definition final (a : Auction) (es : list event) : Auction :=
  foldl (fun a e => st (step a e)) a es.

Definition is_success (o : outcome) : bool :=
  match resp o with
  | Some {| code := _; payload := JsonStrings m |} =>
      bool_decide (m !! "outcome" = Some "success")
  | _ => false
  end.

Definition is_rejected (o : outcome) : bool :=
  match resp o with
  | Some {| code := _; payload := JsonStrings m |} =>
      bool_decide (m !! "outcome" = Some "fail")
  | _ => false
  end.

Definition is_ended (o : outcome) : bool :=
  match resp o with
  | Some {| code := _; payload := JsonStrings m |} =>
      bool_decide (m !! "outcome" = Some "auction ended")
  | _ => false
  end.

(** A well-formed bid as the coordinator sends it. *)
Definition bid_request (name : string) (amount : float64) : request :=
  {| method := "POST";
     decoded := Some (<[ "amount" := AFloat64 amount ]> {[ "name" := AString name ]}) |}.

(** The bid a step accepted, if it did: the bidder and the stored amount. *)
Definition accepted_bid (eo : event * outcome) : option (string * Z) :=
  match eo.1 with
  | EBid r =>
      match parseBid r with
      | inr (name, amount) =>
          if is_success eo.2 then Some (name, int_of_float64 amount) else None
      | inl _ => None
      end
  | _ => None
  end.

(** The accepted bids of a run, oldest first. *)
Definition accepted (h : list (event * outcome)) : list (string * Z) :=
  omap accepted_bid h.

(** The amount of the most recent accepted bid of [id]. *)
Fixpoint last_accepted (id : string) (l : list (string * Z)) : option Z :=
  match l with
  | [] => None
  | (name, v) :: l =>
      match last_accepted id l with
      | Some x => Some x
      | None => if String.eqb name id then Some v else None
      end
  end.

(** A sequence of well-formed bids served one after the other. *)
Fixpoint placeBids (a : Auction) (bids : list (string * float64)) : list outcome :=
  match bids with
  | [] => []
  | (name, amount) :: bids =>
      let o := placeBid a name amount in o :: placeBids (st o) bids
  end.

Definition after_bids (a : Auction) (bids : list (string * float64)) : Auction :=
  foldl (fun a b => st (placeBid a b.1 b.2)) a bids.

Definition amounts (bids : list (string * float64)) : list Z :=
  map (fun b => int_of_float64 b.2) bids.

(** For each bid, the [highestBid] it saw when it got the lock, and its
    amount. *)
Fixpoint arrivals (a : Auction) (bids : list (string * float64)) : list (Z * Z) :=
  match bids with
  | [] => []
  | (name, amount) :: bids =>
      (highestBid a, int_of_float64 amount)
        :: arrivals (st (placeBid a name amount)) bids
  end.

(** The amounts that were strictly greater than the [highestBid] visible at
    their own arrival. *)
Definition winning (a : Auction) (bids : list (string * float64)) : list Z :=
  map snd (filter (fun p => p.1 < p.2) (arrivals a bids)).

(** The three ways through the locked part of [handleBid]. *)
Inductive placed (a : Auction) (name : string) (amount : float64)
  : outcome -> Prop :=
  | placed_ended :
      status a = "ended" ->
      placed a name amount
        {| st := a; resp := Some (json_ok ended_body);
           logs := [LogFailEnded name amount] |}
  | placed_rejected :
      status a <> "ended" ->
      int_of_float64 amount <= highestBid a ->
      placed a name amount
        {| st := register name a; resp := Some (json_ok fail_body);
           logs := [LogFailTooLow name amount (highestBid a)] |}
  | placed_success :
      status a <> "ended" ->
      highestBid a < int_of_float64 amount ->
      placed a name amount
        {| st := mkAuction (startTime a) (duration a) (int_of_float64 amount)
                   name (<[name := int_of_float64 amount]> (bidders a))
                   (status a);
           resp := Some (json_ok success_body);
           logs := [LogBidSuccess name (int_of_float64 amount)] |}.

(** The map against the accepted bids so far. *)
Definition recorded (a : Auction) (l : list (string * Z)) : Prop :=
  forall id,
    (forall v, bidders a !! id = Some v ->
       match last_accepted id l with Some x => v = x | None => v = 0 end) /\
    (forall x, last_accepted id l = Some x -> bidders a !! id = Some x).

End Replica.

(** ** The coordinator: coordinator.go *)

Module Coordinator.

Record Coordinator := mkCoordinator {
  replicas : list string            (* addr of replica *)
}.

Definition Second : Z := 1000000000.

(** A Go [error] coming from the transport or a decoder, as its message. *)
Definition error := string.

(** What [http.Post] gives, together with what
    [json.NewDecoder(resp.Body).Decode(&response)] then makes of the body. *)
Inductive post_result : Type :=
  | PostErr (err : error)
  | PostOk (StatusCode : Z) (decoded : error + gmap string any).

(** What [client.Get] gives, together with what [io.ReadAll(resp.Body)] then
    makes of the body. *)
Inductive get_result : Type :=
  | GetErr (err : error)
  | GetOk (StatusCode : Z) (read : error + string).

(** The network the coordinator talks to: any world whose state the two
    calls may read and change.  [http_Get] receives the client's timeout. *)
Class Network (World : Type) := {
  http_Post : string -> string -> gmap string any -> World -> post_result * World;
  http_Get  : string -> Z -> World -> get_result * World
}.

(** The errors [queryFromReplica] returns. *)
Inductive query_error : Type :=
  | FailedToConnect (err : error)
  | FailedToRead (err : error)
  | UnexpectedStatusCode (StatusCode : Z).

Inductive log_line : Type :=
  | LogSendError (replica : string) (err : error)
  | LogDecodeError (replica : string) (err : error)
  | LogReplicaFailure (replica : string) (response : gmap string any)
  | LogBidCompleted
  | LogQueryError (replica : string) (err : query_error)
  | LogQueryData (replica : string) (data : string)
  | LogQueryAllFailed.

(** What the coordinator does to the outside, in the order it does it. *)
Inductive effect : Type :=
  | Posted (url : string) (contentType : string) (data : gmap string any)
           (r : post_result)
  | Got (url : string) (timeout : Z) (r : get_result)
  | Logged (l : log_line).

Section Effects.
Context {World : Type} `{Network World}.

Record state := mkState { world : World; trace : list effect }.

Definition M (A : Type) : Type := state -> A * state.

Definition ret {A} (x : A) : M A := fun s => (x, s).

Definition bind {A B} (m : M A) (k : A -> M B) : M B :=
  fun s => let (x, s') := m s in k x s'.

Definition emit (e : effect) (s : state) : state :=
  {| world := world s; trace := trace s ++ [e] |}.

Definition log (l : log_line) : M unit := fun s => (tt, emit (Logged l) s).

Definition post (url contentType : string) (data : gmap string any)
  : M post_result :=
  fun s =>
    let (r, w) := http_Post url contentType data (world s) in
    (r, emit (Posted url contentType data r) {| world := w; trace := trace s |}).

Definition get (url : string) (timeout : Z) : M get_result :=
  fun s =>
    let (r, w) := http_Get url timeout (world s) in
    (r, emit (Got url timeout r) {| world := w; trace := trace s |}).
End Effects.

Arguments state : clear implicits.
Arguments M : clear implicits.

Notation "'let*' x ':=' m 'in' k" := (bind m (fun x => k))
  (at level 10, x name, m at level 100, k at level 200, only parsing).
Notation "m ';;' k" := (bind m (fun _ => k))
  (at level 100, k at level 200, right associativity, only parsing).

Section Program.
Context {World : Type} `{Network World}.

(** [json.Marshal] of the map built on line 23. *)
Definition bid_data (name : string) (amount : Z) : gmap string any :=
  <[ "amount" := AInt amount ]> {[ "name" := AString name ]}.

(** Lines 28-42: what one iteration of the loop of [bid] does with the
    result of its request.  Every branch falls through to the next
    iteration. *)
Definition bid_reply (replica : string) (r : post_result) : M World unit :=
  match r with
  | PostErr err => log (LogSendError replica err)            (* continue *)
  | PostOk _ (inl err) => log (LogDecodeError replica err)   (* continue *)
  | PostOk _ (inr response) =>
      match assert_string (response !! "reason") with
      | Some reason =>
          if String.eqb reason "fail"
          then log (LogReplicaFailure replica response)
          else ret tt
      | None => ret tt
      end
  end.

Fixpoint bid_loop (rs : list string) (data : gmap string any) : M World unit :=
  match rs with
  | [] => ret tt
  | replica :: rs =>
      let* r := post (replica ++ "/bid") "application/json" data in
      bid_reply replica r ;;
      bid_loop rs data
  end.

Definition bid (c : Coordinator) (name : string) (amount : Z) : M World unit :=
  bid_loop (replicas c) (bid_data name amount) ;;
  log LogBidCompleted.

Definition query_timeout : Z := 2 * Second.

Definition queryFromReplica (replica : string)
  : M World (query_error + string) :=
  let* r := get (replica ++ "/query") query_timeout in
  match r with
  | GetErr err => ret (inl (FailedToConnect err))
  | GetOk StatusCode (inl err) => ret (inl (FailedToRead err))
  | GetOk StatusCode (inr data) =>
      if negb (StatusCode =? StatusOK)
      then ret (inl (UnexpectedStatusCode StatusCode))
      else ret (inr data)
  end.

(** The loop of [query] from the replicas [rs] on, with the statement
    that follows it. *)
Fixpoint query_loop (rs : list string) : M World unit :=
  match rs with
  | [] => log LogQueryAllFailed
  | replica :: rs =>
      let* r := queryFromReplica replica in
      match r with
      | inl err => log (LogQueryError replica err) ;; query_loop rs  (* continue *)
      | inr data => log (LogQueryData replica data)                  (* return *)
      end
  end.

Definition query (c : Coordinator) : M World unit := query_loop (replicas c).

(** A run from a world [w], with nothing done yet. *)
Definition exec {A} (m : M World A) (w : World) : A * state World :=
  m {| world := w; trace := [] |}.
End Program.

(** The coordinator built in [main]. *)
Definition coordinator : Coordinator :=
  {| replicas := ["http://localhost:8080"; "http://localhost:8081"] |}.


Definition post_results (tr : list effect) : list post_result :=
  omap (fun e => match e with Posted _ _ _ r => Some r | _ => None end) tr.

Definition gotten (tr : list effect) : list (string * Z) :=
  omap (fun e => match e with Got u t _ => Some (u, t) | _ => None end) tr.


Definition logged (tr : list effect) : list log_line :=
  omap (fun e => match e with Logged l => Some l | _ => None end) tr.




(** The lines [bid] logs for one replica. *)
Definition bid_lines (replica : string) (r : post_result) : list log_line :=
  match r with
  | PostErr err => [LogSendError replica err]
  | PostOk _ (inl err) => [LogDecodeError replica err]
  | PostOk _ (inr response) =>
      match assert_string (response !! "reason") with
      | Some reason =>
          if String.eqb reason "fail"
          then [LogReplicaFailure replica response]
          else []
      | None => []
      end
  end.

(** One request per replica, in the order of the list, each followed by the
    lines its result calls for. *)
Inductive broadcast (data : gmap string any)
  : list string -> list post_result -> list effect -> Prop :=
  | broadcast_nil : broadcast data [] [] []
  | broadcast_cons replica rs r results effs :
      broadcast data rs results effs ->
      broadcast data (replica :: rs) (r :: results)
        (Posted (replica ++ "/bid") "application/json" data r
           :: (Logged <$> bid_lines replica r) ++ effs).


(** A network that answers from a script, one entry per request, and fails
    once the script is exhausted. *)
Definition scripted : Network (list (post_result * get_result)) :=
  {| http_Post := fun _ _ _ w =>
       match w with
       | [] => (PostErr "connection refused", [])
       | (p, _) :: w => (p, w)
       end;
     http_Get := fun _ _ w =>
       match w with
       | [] => (GetErr "connection refused", [])
       | (_, g) :: w => (g, w)
       end |}.

End Coordinator.

(** ** The wire between the two *)

(** What [encoding/json] turns a value written by a replica into when the
    coordinator decodes it into [interface{}]: numbers come back as
    float64. *)
Definition decoded_value (v : any) : any :=
  match v with
  | AInt z => AFloat64 (float64_of_int z)
  | v => v
  end.

(** A response written by a replica as the coordinator's [bid] receives it.
    The plain-text bodies of [http.Error] are not JSON. *)
Definition as_received (r : response) : Coordinator.post_result :=
  Coordinator.PostOk (code r)
    match payload r with
    | Text _ => inl "invalid character"
    | JsonStrings m => inr (AString <$> m)
    | JsonValues m => inr (decoded_value <$> m)
    end.

(** The reply of a replica that runs [handleBid] on a well-formed bid, as
    the coordinator receives it. *)
Definition conforming (r : Coordinator.post_result) : Prop :=
  exists a name amount rsp,
    Replica.resp (Replica.placeBid a name amount) = Some rsp /\
    r = as_received rsp.

(** ** The operator console: [main] of coordinator.go *)

Module Console.
Import Coordinator.

(** [strings.Split(s, " ")]: the fields between the spaces of [s], empty
    ones included. *)
Fixpoint Split (s : string) : list string :=
  match s with
  | EmptyString => [EmptyString]
  | String c s =>
      if Ascii.eqb c " " then EmptyString :: Split s
      else
        match Split s with
        | field :: fields => String c field :: fields
        | [] => [String c EmptyString]
        end
  end.

Definition digit (c : ascii) : option Z :=
  let n := Z.of_N (N_of_ascii c) in
  if (48 <=? n) && (n <=? 57) then Some (n - 48) else None.

Fixpoint digits (s : string) (n : Z) : option Z :=
  match s with
  | EmptyString => Some n
  | String c s =>
      match digit c with
      | Some d => digits s (n * 10 + d)
      | None => None
      end
  end.

(** [strconv.Atoi] on a 64-bit platform, [None] when it returns an error:
    an optional sign, then at least one decimal digit and nothing else, the
    value within the range of int. *)
Definition Atoi (s : string) : option Z :=
  match s with
  | EmptyString => None
  | String c rest =>
      let neg := Ascii.eqb c "-" in
      let s := if neg || Ascii.eqb c "+" then rest else s in
      match s with
      | EmptyString => None
      | _ =>
          match digits s 0 with
          | Some n =>
              let n := if neg then - n else n in
              if (min_int <=? n) && (n <=? max_int) then Some n else None
          | None => None
          end
      end
  end.

(** Lines [main] writes to the log itself. *)
Inductive main_line : Type :=
  | LogReadError
  | LogPlacingBid (name : string) (amount : Z)
  | LogQuerying
  | LogExiting.

(** What the console does, in order: what it prints, what it logs, and
    what the coordinator does on its behalf. *)
Inductive output : Type :=
  | Println (s : string)
  | Print (s : string)
  | MainLog (l : main_line)
  | Did (e : effect).

Definition prompt : list output :=
  [Println (String "010" "Enter a command:");
   Println "1 <name> <amount>: Place a bid";
   Println "2: Query auction status";
   Println "0: Exit";
   Print "> "].

(** How an iteration of the loop ends: [continue] (or the end of the
    switch), or [return]. *)
Inductive flow : Type := Continue | Return.

Section Loop.
Context {World : Type} `{Network World}.

(** A call of a method of the coordinator from [main]. *)
Definition call (m : M World unit) (w : World) : list output * World :=
  let s := (exec m w).2 in (Did <$> trace s, world s).

(** Lines 117-155: one iteration of the loop on [input], the line read
    with its surrounding white space removed by [strings.TrimSpace]. *)
Definition command (c : Coordinator) (input : string) (w : World)
  : flow * list output * World :=
  let args := Split input in
  match args with
  | [] => (Continue, [Println "Invalid input. Try again."], w)
  | arg0 :: _ =>
      if String.eqb arg0 "1" then
        match args with
        | [_; name; arg2] =>
            match Atoi arg2 with
            | None =>
                (Continue,
                 [Println "Invalid amount. Please enter a valid integer."], w)
            | Some amount =>
                let (out, w) := call (bid c name amount) w in
                (Continue, MainLog (LogPlacingBid name amount) :: out, w)
            end
        | _ => (Continue, [Println "Invalid input. Usage: 1 <name> <amount>"], w)
        end
      else if String.eqb arg0 "2" then
        let (out, w) := call (query c) w in
        (Continue, MainLog LogQuerying :: out, w)
      else if String.eqb arg0 "0" then
        (Return, [MainLog LogExiting; Println "Exiting..."], w)
      else
        (Continue, [Println "Invalid command. Try again."], w)
  end.

(** Lines 104-156: the loop, over the lines the scanner delivers until it
    delivers no more. *)
Fixpoint console (c : Coordinator) (inputs : list string) (w : World)
  : list output * World :=
  match inputs with
  | [] => (prompt ++ [MainLog LogReadError], w)
  | input :: inputs =>
      match command c input w with
      | (Return, out, w) => (prompt ++ out, w)
      | (Continue, out, w) =>
          let (rest, w) := console c inputs w in
          (prompt ++ out ++ rest, w)
      end
  end.

(** [main]: [opened] is the error of [os.OpenFile] on the log file, if
    any. *)
Definition main (opened : option error) (inputs : list string) (w : World)
  : list output * World :=
  match opened with
  | Some err => ([Println ("Error opening log file: " ++ err)], w)
  | None => console coordinator inputs w
  end.
End Loop.

End Console.

(** * Properties of the replica *)

Module ReplicaProofs.
Import Replica.

Lemma is_success_success a l :
  is_success {| st := a; resp := Some (json_ok success_body); logs := l |} = true.
Proof. reflexivity. Qed.

Lemma is_success_fail a l :
  is_success {| st := a; resp := Some (json_ok fail_body); logs := l |} = false.
Proof. reflexivity. Qed.

Lemma is_success_ended a l :
  is_success {| st := a; resp := Some (json_ok ended_body); logs := l |} = false.
Proof. reflexivity. Qed.

Lemma register_highestBid name a : highestBid (register name a) = highestBid a.
Proof. unfold register. by destruct (bidders a !! name). Qed.

Lemma register_highestBidder name a :
  highestBidder (register name a) = highestBidder a.
Proof. unfold register. by destruct (bidders a !! name). Qed.

Lemma register_status name a : status (register name a) = status a.
Proof. unfold register. by destruct (bidders a !! name). Qed.

Lemma register_known name a :
  is_Some (bidders a !! name) -> register name a = a.
Proof. intros [v Hv]. unfold register. by rewrite Hv. Qed.

Lemma register_bidders name a :
  bidders (register name a) =
    match bidders a !! name with
    | Some _ => bidders a
    | None => <[name := 0]> (bidders a)
    end.
Proof. unfold register. by destruct (bidders a !! name). Qed.

Lemma placeBid_placed a name amount :
  placed a name amount (placeBid a name amount).
Proof.
  unfold placeBid.
  destruct (String.eqb_spec (status a) "ended") as [He|He].
  - by constructor.
  - rewrite register_highestBid.
    destruct (Z.leb_spec (int_of_float64 amount) (highestBid a)) as [Hle|Hlt].
    + by constructor.
    + replace (set_bidder _ _ _) with
        (mkAuction (startTime a) (duration a) (int_of_float64 amount)
           name (<[name := int_of_float64 amount]> (bidders a)) (status a)).
      { by constructor. }
      unfold set_bidder, set_highestBidder, set_highestBid, register; simpl.
      destruct (bidders a !! name); simpl; [done|].
      by rewrite insert_insert_eq.
Qed.

Lemma placeBid_status a name amount :
  status (st (placeBid a name amount)) = status a.
Proof.
  destruct (placeBid_placed a name amount); simpl; auto using register_status.
Qed.

Lemma placeBid_success_iff a name amount :
  is_success (placeBid a name amount) = true <->
  status a <> "ended" /\ highestBid a < int_of_float64 amount.
Proof.
  destruct (placeBid_placed a name amount);
    rewrite ?is_success_success, ?is_success_fail, ?is_success_ended;
    split; try done; intros [? ?]; try done; lia.
Qed.

Lemma placeBid_rejected_iff a name amount :
  is_rejected (placeBid a name amount) = true <->
  status a <> "ended" /\ int_of_float64 amount <= highestBid a.
Proof.
  destruct (placeBid_placed a name amount);
    (split; [intros Hr | intros [? ?]]); try done; try lia.
Qed.

Lemma placeBid_ended_iff a name amount :
  is_ended (placeBid a name amount) = true <-> status a = "ended".
Proof.
  destruct (placeBid_placed a name amount); split; done.
Qed.

Lemma handleBid_parsed a r name amount :
  parseBid r = inr (name, amount) -> handleBid a r = placeBid a name amount.
Proof. intros Hr. unfold handleBid. by rewrite Hr. Qed.

Lemma handleBid_refused a r rsp l :
  parseBid r = inl (rsp, l) ->
  handleBid a r = {| st := a; resp := Some rsp; logs := l |}.
Proof. intros Hr. unfold handleBid. by rewrite Hr. Qed.

Lemma handleQuery_st a m elapsed : st (handleQuery a m elapsed) = a.
Proof. unfold handleQuery. by destruct (negb _). Qed.

(** ** The rejected and the ended branch (C1) *)

(** C1, as stated, fails: a bid that is not the highest, from a bidder the
    replica has not seen yet, is rejected and yet leaves an entry for that
    bidder in the bidders map.  On the fresh auction, bob bidding 0 is
    rejected and the map is no longer empty. *)
Lemma C1_rejected_bid_registers_bidder :
  let o := placeBid (auction 0) "bob" (float64_of_int 0) in
  is_success o = false /\ is_rejected o = true /\
  bidders (auction 0) !! "bob" = None /\
  bidders (st o) !! "bob" = Some 0 /\
  st o <> auction 0.
Proof.
  repeat split; try reflexivity.
  intros Heq. apply (f_equal (fun a => bidders a !! "bob")) in Heq.
  vm_compute in Heq. discriminate.
Qed.

(** C1, amended: a call to PlaceBid that does not return Success returns
    Rejected (the auction is not ended and the truncated amount is not
    strictly greater than highestBid) or AuctionEnded; either way
    highestBid, highestBidder, status, startTime and duration are
    unchanged.  On AuctionEnded the whole state is unchanged.  On Rejected
    the bidders map is unchanged except that a bidder without an entry gets
    one with amount 0, so the whole state is unchanged when the bidder was
    already registered. *)
Theorem C1_no_success_frame a name amount :
  is_success (placeBid a name amount) = false ->
  let o := placeBid a name amount in
  (is_ended o = true /\ status a = "ended" /\ st o = a
   \/ is_rejected o = true /\ status a <> "ended" /\
      int_of_float64 amount <= highestBid a /\
      bidders (st o) =
        match bidders a !! name with
        | Some _ => bidders a
        | None => <[name := 0]> (bidders a)
        end /\
      (is_Some (bidders a !! name) -> st o = a)) /\
  highestBid (st o) = highestBid a /\
  highestBidder (st o) = highestBidder a /\
  status (st o) = status a /\
  startTime (st o) = startTime a /\
  duration (st o) = duration a.
Proof.
  intros Hns o. subst o.
  destruct (placeBid_placed a name amount) as [He|He Hle|He Hlt].
  - split; [left|]; done.
  - split.
    + right. repeat split; try done.
      * apply register_bidders.
      * apply register_known.
    + unfold register. by destruct (bidders a !! name).
  - by rewrite is_success_success in Hns.
Qed.

Lemma C1_no_success_frame_witness :
  let a := st (placeBid (auction 0) "alice" (float64_of_int 100)) in
  let o := placeBid a "alice" (float64_of_int 50) in
  is_success o = false /\ st o = a /\ highestBid (st o) = 100.
Proof.
  intros a o.
  assert (Hns : is_success o = false) by reflexivity.
  destruct (C1_no_success_frame a "alice" (float64_of_int 50) Hns)
    as [[(_ & He & _)|(_ & _ & _ & _ & Hsame)] (Hb & _)].
  - discriminate He.
  - split; [done|]. split; [|exact Hb].
    apply Hsame. by exists 100.
Defined.

(** ** The contract of PlaceBid (C3) *)



(** ** What the bidders map records (C2) *)

Lemma parseBid_bid_request name amount :
  parseBid (bid_request name amount) = inr (name, amount).
Proof. reflexivity. Qed.

Lemma last_accepted_app id l1 l2 :
  last_accepted id (l1 ++ l2) =
    match last_accepted id l2 with
    | Some x => Some x
    | None => last_accepted id l1
    end.
Proof.
  induction l1 as [|[n v] l1 IH]; simpl.
  - by destruct (last_accepted id l2).
  - rewrite IH. destruct (last_accepted id l2); [done|].
    by destruct (last_accepted id l1).
Qed.

Lemma last_accepted_snoc id l name v :
  last_accepted id (l ++ [(name, v)]) =
    if String.eqb name id then Some v else last_accepted id l.
Proof.
  rewrite last_accepted_app. simpl. by destruct (String.eqb name id).
Qed.

Lemma recorded_register a l name :
  recorded a l -> recorded (register name a) l.
Proof.
  intros Hrec id. rewrite register_bidders.
  destruct (bidders a !! name) eqn:Hn; [apply Hrec|].
  destruct (Hrec id) as [H1 H2].
  destruct (decide (name = id)) as [->|Hne].
  - rewrite lookup_insert_eq. split.
    + intros v [= <-]. destruct (last_accepted id l) as [x|] eqn:Hl; [|done].
      specialize (H2 x eq_refl). congruence.
    + intros x Hx. specialize (H2 x Hx). congruence.
  - by rewrite lookup_insert_ne.
Qed.

Lemma recorded_success a l name v :
  recorded a l ->
  recorded (mkAuction (startTime a) (duration a) v name
              (<[name := v]> (bidders a)) (status a))
           (l ++ [(name, v)]).
Proof.
  intros Hrec id. rewrite last_accepted_snoc. simpl.
  destruct (String.eqb_spec name id) as [->|Hne].
  - rewrite lookup_insert_eq. split; congruence.
  - rewrite lookup_insert_ne by done. apply Hrec.
Qed.

Lemma recorded_step a l e :
  recorded a l ->
  recorded (st (step a e))
           (l ++ match accepted_bid (e, step a e) with
                 | Some p => [p]
                 | None => []
                 end).
Proof.
  intros Hrec. destruct e as [r|m t|]; unfold accepted_bid; simpl.
  - destruct (parseBid r) as [[rsp lg]|[name amount]] eqn:Hr.
    + rewrite (handleBid_refused _ _ _ _ Hr). simpl. by rewrite app_nil_r.
    + rewrite (handleBid_parsed _ _ _ _ Hr).
      destruct (placeBid_placed a name amount).
      * rewrite is_success_ended, app_nil_r. done.
      * rewrite is_success_fail, app_nil_r. by apply recorded_register.
      * rewrite is_success_success. by apply recorded_success.
  - rewrite handleQuery_st, app_nil_r. done.
  - rewrite app_nil_r. done.
Qed.

Lemma recorded_run es : forall a l,
  recorded a l -> recorded (final a es) (l ++ accepted (run a es)).
Proof.
  induction es as [|e es IH]; intros a l Hrec; simpl.
  - by rewrite app_nil_r.
  - pose proof (IH _ _ (recorded_step a l e Hrec)) as Hfin.
    unfold accepted in *. simpl.
    destruct (accepted_bid (e, step a e)) as [p|]; simpl.
    + by rewrite <- app_assoc in Hfin.
    + by rewrite app_nil_r in Hfin.
Qed.

Lemma recorded_initial now : recorded (auction now) [].
Proof. intros id. simpl. split; [|done]. by rewrite lookup_empty. Qed.

(** C2, as stated, fails: on the fresh auction bob bids 0, is rejected, and
    the bidders map holds an entry for bob, who has no successful bid. *)
Lemma C2_entry_without_successful_bid :
  let es := [EBid (bid_request "bob" (float64_of_int 0))] in
  bidders (final (auction 0) es) !! "bob" = Some 0 /\
  accepted (run (auction 0) es) = [] /\
  last_accepted "bob" (accepted (run (auction 0) es)) = None.
Proof. repeat split; reflexivity. Qed.

(** C2, amended: in every state reached from the initial one, when the
    bidders map holds an entry for id, either id has placed no successful
    bid and the entry is 0, or the entry is the amount of the most recent
    successful bid of id; and a bidder with a successful bid has an
    entry. *)
Theorem C2_bidders_record_last_accepted now es id :
  let a := final (auction now) es in
  let h := accepted (run (auction now) es) in
  (forall v, bidders a !! id = Some v ->
     match last_accepted id h with Some x => v = x | None => v = 0 end) /\
  (forall x, last_accepted id h = Some x -> bidders a !! id = Some x).
Proof.
  intros a h. exact (recorded_run es _ _ (recorded_initial now) id).
Qed.

Lemma C2_bidders_record_last_accepted_witness :
  let es := [EBid (bid_request "alice" (float64_of_int 100));
             EBid (bid_request "bob" (float64_of_int 50));
             EBid (bid_request "bob" (float64_of_int 150));
             EBid (bid_request "alice" (float64_of_int 120))] in
  last_accepted "alice" (accepted (run (auction 0) es)) = Some 100 /\
  bidders (final (auction 0) es) !! "alice" = Some 100.
Proof.
  intros es.
  assert (Hl : last_accepted "alice" (accepted (run (auction 0) es)) = Some 100)
    by reflexivity.
  split; [exact Hl|].
  exact (proj2 (C2_bidders_record_last_accepted 0 es "alice") 100 Hl).
Defined.

(** ** Monotonicity of the highest bid (C5) *)

Lemma parseBid_refused r rsp l :
  parseBid r = inl (rsp, l) -> exists msg c, rsp = http_Error msg c.
Proof.
  unfold parseBid. intros Hr. repeat case_match; simplify_eq; eauto.
Qed.

Lemma step_success a e :
  is_success (step a e) = true ->
  exists r name amount,
    e = EBid r /\ parseBid r = inr (name, amount) /\
    step a e = placeBid a name amount /\
    status a <> "ended" /\ highestBid a < int_of_float64 amount.
Proof.
  destruct e as [r|m t|]; simpl.
  - destruct (parseBid r) as [[rsp l]|[name amount]] eqn:Hr.
    + rewrite (handleBid_refused _ _ _ _ Hr).
      by destruct (parseBid_refused _ _ _ Hr) as (msg & c & ->).
    + rewrite (handleBid_parsed _ _ _ _ Hr). intros Hs.
      exists r, name, amount. repeat split; try done;
        by apply placeBid_success_iff in Hs as [? ?].
  - unfold handleQuery. by destruct (negb _).
  - done.
Qed.

Lemma step_highestBid a e :
  highestBid (st (step a e)) = highestBid a /\
  highestBidder (st (step a e)) = highestBidder a
  \/ exists r name amount,
       e = EBid r /\ parseBid r = inr (name, amount) /\
       is_success (step a e) = true /\
       highestBid a < int_of_float64 amount /\
       highestBid (st (step a e)) = int_of_float64 amount /\
       highestBidder (st (step a e)) = name.
Proof.
  destruct e as [r|m t|]; simpl.
  - destruct (parseBid r) as [[rsp l]|[name amount]] eqn:Hr.
    + rewrite (handleBid_refused _ _ _ _ Hr). by left.
    + rewrite (handleBid_parsed _ _ _ _ Hr).
      destruct (placeBid_placed a name amount).
      * by left.
      * left. simpl. by rewrite register_highestBid, register_highestBidder.
      * right. exists r, name, amount. by rewrite is_success_success.
  - rewrite handleQuery_st. by left.
  - by left.
Qed.

(** C5, as stated, fails in its last part: when the leading bidder raises
    their own bid, highestBid changes and highestBidder does not. *)
Lemma C5_highestBid_changes_alone :
  let a := st (step (auction 0) (EBid (bid_request "alice" (float64_of_int 100)))) in
  let a' := st (step a (EBid (bid_request "alice" (float64_of_int 200)))) in
  status a = "ongoing" /\
  highestBid a = 100 /\ highestBid a' = 200 /\
  highestBid a' <> highestBid a /\
  highestBidder a' = highestBidder a.
Proof. repeat split; try reflexivity. vm_compute. discriminate. Qed.

(** C5, amended: while the auction is ongoing, no operation lowers
    highestBid; an accepted bid raises it and closing the auction leaves it
    (and highestBidder) as it is; highestBidder changes only when
    highestBid does; and highestBid changes only through an accepted bid,
    which assigns it the bid's amount and assigns highestBidder the bid's
    bidder in the same step (so that highestBidder keeps its value when the
    leader raises their own bid). *)
Theorem C5_highestBid_monotone a e :
  status a = "ongoing" ->
  let o := step a e in
  highestBid a <= highestBid (st o) /\
  (is_success o = true -> highestBid a < highestBid (st o)) /\
  (e = EEnd ->
     highestBid (st o) = highestBid a /\
     highestBidder (st o) = highestBidder a) /\
  (highestBidder (st o) <> highestBidder a ->
     highestBid (st o) <> highestBid a) /\
  (highestBid (st o) <> highestBid a ->
     exists r name amount,
       e = EBid r /\ parseBid r = inr (name, amount) /\
       is_success o = true /\
       highestBid (st o) = int_of_float64 amount /\
       highestBidder (st o) = name).
Proof.
  intros Hon o. subst o.
  destruct (step_highestBid a e)
    as [[Hb Hn]|(r & name & amount & -> & Hr & Hs & Hlt & Hb & Hn)].
  - split; [lia|]. split; [|split; [done|split; [congruence|done]]].
    intros Hs. apply step_success in Hs
      as (r & name & amount & -> & Hr & Heq & He & Hlt).
    rewrite Heq in *.
    destruct (placeBid_placed a name amount); simpl in *; [done|lia|lia].
  - split; [lia|]. split; [lia|]. split; [done|]. split; [lia|].
    intros _. exists r, name, amount. done.
Qed.

Lemma C5_highestBid_monotone_witness :
  let a := st (step (auction 0) (EBid (bid_request "alice" (float64_of_int 100)))) in
  let e := EBid (bid_request "bob" (float64_of_int 150)) in
  status a = "ongoing" /\ highestBid a <= highestBid (st (step a e)).
Proof.
  intros a e.
  assert (Hon : status a = "ongoing") by reflexivity.
  split; [exact Hon|].
  exact (proj1 (C5_highestBid_monotone a e Hon)).
Defined.

(** ** Closing the auction (C6) *)

Lemma step_status_ended a e :
  status a = "ended" -> status (st (step a e)) = "ended".
Proof.
  intros He. destruct e as [r|m t|]; simpl; [| |done].
  - destruct (parseBid r) as [[rsp l]|[name amount]] eqn:Hr.
    + by rewrite (handleBid_refused _ _ _ _ Hr).
    + by rewrite (handleBid_parsed _ _ _ _ Hr), placeBid_status.
  - by rewrite handleQuery_st.
Qed.

(** C6: the locked body of endAuction takes an ongoing auction to ended
    and touches no other field; run again on the ended auction it changes
    nothing, so that two invocations leave the same state (in particular
    the same status, highestBid and highestBidder) as one; and no operation
    takes an ended auction back to ongoing. *)
Theorem C6_closing_one_way_idempotent a :
  let c := st (endAuction a) in
  (status a = "ongoing" -> status c = "ended") /\
  highestBid c = highestBid a /\
  highestBidder c = highestBidder a /\
  bidders c = bidders a /\
  startTime c = startTime a /\
  duration c = duration a /\
  (status a = "ended" -> c = a) /\
  st (endAuction c) = c /\
  status (st (endAuction c)) = status c /\
  highestBid (st (endAuction c)) = highestBid c /\
  highestBidder (st (endAuction c)) = highestBidder c /\
  (forall e, status a = "ended" -> status (st (step a e)) = "ended") /\
  (forall es, status (final c es) = "ended").
Proof.
  intros c. subst c. repeat split; try done.
  - destruct a; simpl. by intros ->.
  - intros e He. by apply step_status_ended.
  - intros es. assert (He : status (st (endAuction a)) = "ended") by done.
    revert He. generalize (st (endAuction a)).
    induction es as [|e es IH]; intros b He; simpl; [done|].
    apply IH. by apply step_status_ended.
Qed.

Lemma C6_closing_one_way_idempotent_witness :
  let a := st (step (auction 0) (EBid (bid_request "alice" (float64_of_int 100)))) in
  status a = "ongoing" /\ status (st (endAuction a)) = "ended".
Proof.
  intros a.
  assert (Hon : status a = "ongoing") by reflexivity.
  split; [exact Hon|].
  exact (proj1 (C6_closing_one_way_idempotent a) Hon).
Defined.

(** ** Malformed requests (C9) *)



(** ** Bids served in lock-acquisition order (C4) *)

Lemma placeBid_highestBid a name amount :
  status a <> "ended" ->
  highestBid (st (placeBid a name amount)) =
    if decide (highestBid a < int_of_float64 amount)
    then int_of_float64 amount else highestBid a.
Proof.
  intros He. destruct (placeBid_placed a name amount); simpl; [done| |].
  - rewrite register_highestBid. case_decide; [lia|done].
  - case_decide; [done|lia].
Qed.

Lemma winning_cons a name amount bids :
  winning a ((name, amount) :: bids) =
    if decide (highestBid a < int_of_float64 amount)
    then int_of_float64 amount :: winning (st (placeBid a name amount)) bids
    else winning (st (placeBid a name amount)) bids.
Proof.
  unfold winning. simpl. rewrite filter_cons. simpl. by case_decide.
Qed.

Lemma after_bids_max bids : forall a,
  status a <> "ended" ->
  highestBid a <= highestBid (after_bids a bids) /\
  (forall x, x ∈ winning a bids ->
     highestBid a < x /\ x <= highestBid (after_bids a bids)) /\
  (winning a bids = [] -> highestBid (after_bids a bids) = highestBid a) /\
  (winning a bids <> [] -> highestBid (after_bids a bids) ∈ winning a bids).
Proof.
  induction bids as [|[name amount] bids IH]; intros a He.
  - unfold winning. simpl. split; [lia|]. split; [|done].
    intros x Hx. by apply elem_of_nil in Hx.
  - assert (He' : status (st (placeBid a name amount)) <> "ended")
      by by rewrite placeBid_status.
    destruct (IH _ He') as (Hle & Hin & Hnil & Hne). clear IH.
    rewrite winning_cons. change (after_bids a ((name, amount) :: bids))
      with (after_bids (st (placeBid a name amount)) bids).
    rewrite (placeBid_highestBid _ _ _ He) in *.
    case_decide as Hlt.
    + split; [lia|]. split; [|split; [done|]].
      * intros x Hx. apply elem_of_cons in Hx as [->|Hx]; [lia|].
        destruct (Hin x Hx). lia.
      * intros _.
        destruct (winning (st (placeBid a name amount)) bids) eqn:Hw.
        -- rewrite Hnil by done. apply list_elem_of_here.
        -- apply list_elem_of_further, Hne. done.
    + done.
Qed.

Lemma placeBids_outcomes bids : forall a,
  status a <> "ended" ->
  map is_success (placeBids a bids) =
    map (fun p => bool_decide (p.1 < p.2)) (arrivals a bids).
Proof.
  induction bids as [|[name amount] bids IH]; intros a He; simpl; [done|].
  rewrite IH by by rewrite placeBid_status. f_equal.
  destruct (placeBid_placed a name amount); [done| |].
  - rewrite is_success_fail. symmetry. apply bool_decide_eq_false. simpl. lia.
  - rewrite is_success_success. symmetry. by apply bool_decide_eq_true.
Qed.

Lemma placeBids_increasing bids : forall a,
  status a <> "ended" ->
  StronglySorted Z.lt (highestBid a :: amounts bids) ->
  Forall (fun o => is_success o = true) (placeBids a bids).
Proof.
  induction bids as [|[name amount] bids IH]; intros a He Hs; simpl; [done|].
  apply StronglySorted_cons in Hs as [Hall Hs]. simpl in Hall, Hs.
  apply Forall_cons in Hall as [Hlt _].
  constructor.
  - by apply placeBid_success_iff.
  - apply IH; [by rewrite placeBid_status|].
    rewrite (placeBid_highestBid _ _ _ He). by rewrite decide_True.
Qed.

Lemma placeBids_too_low bids : forall a,
  status a <> "ended" ->
  Forall (fun x => x <= highestBid a) (amounts bids) ->
  Forall (fun o => is_rejected o = true) (placeBids a bids).
Proof.
  induction bids as [|[name amount] bids IH]; intros a He Hall; simpl; [done|].
  simpl in Hall. apply Forall_cons in Hall as [Hle Hall].
  constructor.
  - by apply placeBid_rejected_iff.
  - apply IH; [by rewrite placeBid_status|].
    rewrite (placeBid_highestBid _ _ _ He). rewrite decide_False by lia. done.
Qed.

Lemma placeBids_decreasing a bids :
  status a <> "ended" ->
  StronglySorted Z.lt (highestBid a :: amounts bids) ->
  match placeBids a (rev bids) with
  | [] => bids = []
  | o :: os => is_success o = true /\ Forall (fun o => is_rejected o = true) os
  end.
Proof.
  intros He Hs.
  destruct bids as [|b bids _] using rev_ind; [done|].
  rewrite rev_app_distr. destruct b as [name amount]. simpl.
  unfold amounts in Hs. rewrite map_app in Hs. simpl in Hs.
  apply StronglySorted_cons in Hs as [Hall Hs].
  apply Forall_app in Hall as [_ Hall]. apply Forall_cons in Hall as [Hlt _].
  apply StronglySorted_app in Hs as (Hlow & _ & _).
  split; [by apply placeBid_success_iff|].
  apply placeBids_too_low; [by rewrite placeBid_status|].
  rewrite (placeBid_highestBid _ _ _ He), decide_True by done.
  unfold amounts. rewrite map_rev. apply Forall_rev, Forall_forall.
  intros x Hx. specialize (Hlow x (int_of_float64 amount) Hx).
  assert (x < int_of_float64 amount); [|lia].
  apply Hlow. apply list_elem_of_here.
Qed.

(** C4, as stated, fails in its second part: strictly increasing amounts
    served in increasing order do not all succeed when the first of them is
    not above the highestBid the replica starts from.  On the fresh
    auction, the amounts 0 < 5 in this order: the bid of 0 is rejected.  On
    an ongoing auction whose highestBid is 100, the amounts 10 < 20 in this
    order: both are rejected. *)
Lemma C4_increasing_bid_rejected :
  let bids := [("a", float64_of_int 0); ("b", float64_of_int 5)] in
  let a := st (placeBid (auction 0) "alice" (float64_of_int 100)) in
  let bids' := [("b", float64_of_int 10); ("c", float64_of_int 20)] in
  status (auction 0) = "ongoing" /\
  amounts bids = [0; 5] /\
  StronglySorted Z.lt (amounts bids) /\
  map is_success (placeBids (auction 0) bids) = [false; true] /\
  map is_rejected (placeBids (auction 0) bids) = [true; false] /\
  status a = "ongoing" /\
  highestBid a = 100 /\
  StronglySorted Z.lt (amounts bids') /\
  map is_success (placeBids a bids') = [false; false].
Proof.
  repeat split; try reflexivity.
  - change (StronglySorted Z.lt [0; 5]). repeat constructor; lia.
  - change (StronglySorted Z.lt [10; 20]). repeat constructor; lia.
Qed.

(** C4, amended: for bids served by one replica in lock-acquisition order
    while the auction is ongoing, the bids that succeed are those whose
    amount was strictly greater than the highestBid visible at their
    arrival, and the final highestBid is the maximum of these amounts (the
    highestBid of the start when there is none); when moreover the amounts
    are strictly increasing and the first is above the highestBid of the
    start, hb < A1 < ... < An, served in increasing order they all succeed,
    and served in decreasing order the first succeeds and every other bid
    is rejected. *)
Theorem C4_bids_in_lock_order a bids :
  status a = "ongoing" ->
  let w := winning a bids in
  map is_success (placeBids a bids) =
    map (fun p => bool_decide (p.1 < p.2)) (arrivals a bids) /\
  (w = [] -> highestBid (after_bids a bids) = highestBid a) /\
  (w <> [] ->
     highestBid (after_bids a bids) ∈ w /\
     forall x, x ∈ w -> x <= highestBid (after_bids a bids)) /\
  (StronglySorted Z.lt (highestBid a :: amounts bids) ->
     Forall (fun o => is_success o = true) (placeBids a bids) /\
     match placeBids a (rev bids) with
     | [] => bids = []
     | o :: os =>
         is_success o = true /\ Forall (fun o => is_rejected o = true) os
     end).
Proof.
  intros Hon w. subst w.
  assert (He : status a <> "ended") by by rewrite Hon.
  destruct (after_bids_max bids a He) as (_ & Hin & Hnil & Hne).
  split; [by apply placeBids_outcomes|].
  split; [done|]. split.
  - intros Hw. split; [by apply Hne|]. intros x Hx. by apply Hin.
  - intros Hs. split.
    + by apply placeBids_increasing.
    + by apply placeBids_decreasing.
Qed.

Lemma C4_bids_in_lock_order_witness :
  let a := st (placeBid (auction 0) "zoe" (float64_of_int 5)) in
  let bids := [("alice", float64_of_int 10); ("bob", float64_of_int 20);
               ("carol", float64_of_int 30)] in
  status a = "ongoing" /\
  StronglySorted Z.lt (highestBid a :: amounts bids) /\
  Forall (fun o => is_success o = true) (placeBids a bids) /\
  highestBid (after_bids a bids) ∈ winning a bids.
Proof.
  intros a bids.
  assert (Hon : status a = "ongoing") by reflexivity.
  assert (Hs : StronglySorted Z.lt (highestBid a :: amounts bids)).
  { change (StronglySorted Z.lt [5; 10; 20; 30]). repeat constructor; lia. }
  destruct (C4_bids_in_lock_order a bids Hon) as (_ & _ & Hmax & Hsorted).
  split; [exact Hon|]. split; [exact Hs|]. split.
  - exact (proj1 (Hsorted Hs)).
  - apply Hmax. vm_compute. discriminate.
Defined.

(** The first scenario of the design document. *)
Example scenario_replica :
  let es := [EBid (bid_request "alice" (float64_of_int 100));
             EBid (bid_request "bob" (float64_of_int 50));
             EBid (bid_request "bob" (float64_of_int 150))] in
  let a := final (auction 0) es in
  map (fun eo => is_success eo.2) (run (auction 0) es)
    = [true; false; true] /\
  (status a, highestBid a, highestBidder a)
    = ("ongoing", 150, "bob") /\
  status (st (endAuction a)) = "ended" /\
  highestBidder (st (endAuction a)) = "bob".
Proof. repeat split; reflexivity. Qed.

End ReplicaProofs.

(** * Properties of the coordinator *)

Module CoordinatorProofs.
Import Coordinator.

Lemma logged_app tr1 tr2 : logged (tr1 ++ tr2) = logged tr1 ++ logged tr2.
Proof. apply omap_app. Qed.


Lemma post_results_app tr1 tr2 :
  post_results (tr1 ++ tr2) = post_results tr1 ++ post_results tr2.
Proof. apply omap_app. Qed.

Lemma logged_Logged ls : logged (Logged <$> ls) = ls.
Proof. induction ls as [|l ls IH]; simpl; [done|]. by f_equal. Qed.


Lemma post_results_Logged ls : post_results (Logged <$> ls) = [].
Proof. by induction ls. Qed.

Lemma gotten_app tr1 tr2 : gotten (tr1 ++ tr2) = gotten tr1 ++ gotten tr2.
Proof. apply omap_app. Qed.



(** *** What a broadcast leaves in the trace *)


Lemma broadcast_results data rs results effs :
  broadcast data rs results effs -> post_results effs = results.
Proof.
  induction 1 as [|replica rs r results effs _ IH]; simpl; [done|].
  by rewrite post_results_app, post_results_Logged, IH.
Qed.


Lemma broadcast_logged data rs results effs :
  broadcast data rs results effs ->
  logged effs = mjoin (zip_with bid_lines rs results).
Proof.
  induction 1 as [|replica rs r results effs _ IH]; simpl; [done|].
  by rewrite logged_app, logged_Logged, IH.
Qed.


(** *** What a query leaves in the trace *)






Lemma conforming_reason r response :
  conforming r ->
  forall c, r = PostOk c (inr response) ->
  assert_string (response !! "reason") <> Some "fail".
Proof.
  intros (a & name & amount & rsp & Hrsp & ->) c.
  destruct (ReplicaProofs.placeBid_placed a name amount);
    simpl in Hrsp; injection Hrsp as <-; intros [= _ <-]; vm_compute; discriminate.
Qed.

Lemma conforming_lines replica r : conforming r -> bid_lines replica r = [].
Proof.
  intros Hc. destruct r as [err|c [err|response]].
  - by destruct Hc as (a & name & amount & rsp & _ & ?).
  - destruct Hc as (a & name & amount & rsp & Hrsp & Hr).
    destruct (ReplicaProofs.placeBid_placed a name amount);
      simpl in Hrsp; injection Hrsp as <-; discriminate Hr.
  - pose proof (conforming_reason _ _ Hc c eq_refl) as Hne. simpl.
    destruct (assert_string (response !! "reason")) as [reason|]; [|done].
    destruct (String.eqb_spec reason "fail") as [->|]; done.
Qed.

Section Runs.
Context {World : Type} `{Network World}.

Lemma bid_reply_run replica r (s : state World) :
  bid_reply replica r s =
    (tt, {| world := world s;
            trace := trace s ++ (Logged <$> bid_lines replica r) |}).
Proof.
  assert (Hid : (tt, s) = (tt, {| world := world s; trace := trace s ++ [] |})).
  { destruct s; simpl. by rewrite app_nil_r. }
  destruct r as [err|c [err|response]]; simpl; try done.
  destruct (assert_string (response !! "reason")) as [reason|]; [|done].
  by destruct (String.eqb reason "fail").
Qed.

Lemma bid_loop_run data rs : forall s : state World,
  exists results effs,
    broadcast data rs results effs /\
    trace (bid_loop rs data s).2 = trace s ++ effs.
Proof.
  induction rs as [|replica rs IH]; intros s; simpl.
  - exists [], []. split; [constructor|]. by rewrite app_nil_r.
  - unfold bind, post.
    destruct (http_Post (replica ++ "/bid") "application/json" data (world s))
      as [r w].
    rewrite bid_reply_run. simpl.
    edestruct IH as (results & effs & Hb & ->).
    eexists (r :: results), _. split; [by constructor|]. simpl.
    by rewrite <- !app_assoc.
Qed.



Lemma bid_run c name amount (w : World) :
  exists results effs,
    broadcast (bid_data name amount) (replicas c) results effs /\
    trace (exec (bid c name amount) w).2 = effs ++ [Logged LogBidCompleted] /\
    (exec (bid c name amount) w).1 = tt.
Proof.
  unfold exec, bid, bind.
  destruct (bid_loop_run (bid_data name amount) (replicas c)
              {| world := w; trace := [] |}) as (results & effs & Hb & Htr).
  destruct (bid_loop _ _ _) as [[] s]. simpl in *.
  exists results, effs. by rewrite Htr.
Qed.



(** C10: whatever a replica answers to a well-formed bid (success, fail
    with its reason, or auction ended), its reason field is never the
    string "fail", so the branch of bid that logs a replica's failure is
    not taken: the reply leaves no line in the coordinator's log, which
    is the same for a rejected bid as for an accepted one; when all
    replicas answer, only the closing line is logged. *)
Theorem C10_rejection_not_reported c name amount (w : World) :
  (forall a bidder bidAmount rsp m,
     Replica.resp (Replica.placeBid a bidder bidAmount) = Some rsp ->
     payload rsp = JsonStrings m -> m !! "reason" <> Some "fail") /\
  (forall replica r (s : state World),
     conforming r ->
     bid_lines replica r = [] /\ bid_reply replica r s = (tt, s)) /\
  (forall replica r r' (s : state World),
     conforming r -> conforming r' ->
     bid_reply replica r s = bid_reply replica r' s) /\
  (let tr := trace (exec (bid c name amount) w).2 in
   Forall conforming (post_results tr) ->
   logged tr = [LogBidCompleted]).
Proof.
  assert (Hreply : forall replica r (s : state World),
            conforming r -> bid_reply replica r s = (tt, s)).
  { intros replica r s Hc.
    rewrite bid_reply_run, (conforming_lines _ _ Hc). simpl.
    rewrite app_nil_r. by destruct s. }
  split; [|split; [|split]].
  - intros a bidder bidAmount rsp m Hrsp Hm.
    destruct (ReplicaProofs.placeBid_placed a bidder bidAmount);
      simpl in Hrsp; injection Hrsp as <-; simpl in Hm; injection Hm as <-;
      vm_compute; discriminate.
  - intros replica r s Hc. split; [by apply conforming_lines|by apply Hreply].
  - intros replica r r' s Hc Hc'. by rewrite !Hreply.
  - intros tr. subst tr.
    destruct (bid_run c name amount w) as (results & effs & Hb & -> & _).
    rewrite post_results_app, logged_app, app_nil_r. simpl.
    rewrite (broadcast_results _ _ _ _ Hb), (broadcast_logged _ _ _ _ Hb).
    intros Hall. replace (mjoin _) with (@nil log_line); [done|].
    clear Hb. generalize (replicas c). intros rs.
    induction Hall as [|r results Hc _ IH] in rs |- *; destruct rs as [|replica rs];
      simpl; try done.
    rewrite (conforming_lines _ _ Hc). simpl. apply IH.
Qed.
End Runs.


(** *** The theorems at work on a scripted network *)


Lemma C10_rejection_not_reported_witness :
  let a := Replica.st (Replica.placeBid (Replica.auction 0) "dave"
                         (float64_of_int 500)) in
  let b := Replica.st (Replica.placeBid (Replica.auction 0) "erin"
                         (float64_of_int 50)) in
  let w := [(as_received (Replica.json_ok Replica.fail_body), GetErr "unused");
            (as_received (Replica.json_ok Replica.success_body), GetErr "unused")] in
  let tr := trace (exec (@bid _ scripted coordinator "carol" 200) w).2 in
  Replica.resp (Replica.placeBid a "carol" (float64_of_int 200))
    = Some (Replica.json_ok Replica.fail_body) /\
  Replica.resp (Replica.placeBid b "carol" (float64_of_int 200))
    = Some (Replica.json_ok Replica.success_body) /\
  logged tr = [LogBidCompleted].
Proof.
  intros a b w tr.
  assert (Ha : Replica.resp (Replica.placeBid a "carol" (float64_of_int 200))
               = Some (Replica.json_ok Replica.fail_body)) by reflexivity.
  assert (Hb : Replica.resp (Replica.placeBid b "carol" (float64_of_int 200))
               = Some (Replica.json_ok Replica.success_body)) by reflexivity.
  split; [exact Ha|]. split; [exact Hb|].
  destruct (@C10_rejection_not_reported _ scripted coordinator "carol" 200 w)
    as (_ & _ & _ & Hrun).
  apply Hrun.
  change (Forall conforming
            [as_received (Replica.json_ok Replica.fail_body);
             as_received (Replica.json_ok Replica.success_body)]).
  repeat constructor.
  - by exists a, "carol", (float64_of_int 200), (Replica.json_ok Replica.fail_body).
  - by exists b, "carol", (float64_of_int 200), (Replica.json_ok Replica.success_body).
Defined.

(** The scenarios of the design document. *)

Example scenario_query_second_replica :
  let w := [(PostErr "unused", GetErr "connection refused");
            (PostErr "unused", GetOk 200 (inr "{status: ongoing}"))] in
  logged (trace (exec (@query _ scripted coordinator) w).2) =
    [LogQueryError "http://localhost:8080" (FailedToConnect "connection refused");
     LogQueryData "http://localhost:8081" "{status: ongoing}"].
Proof. reflexivity. Qed.

Example scenario_query_no_replica :
  logged (trace (exec (@query _ scripted coordinator) []).2) =
    [LogQueryError "http://localhost:8080" (FailedToConnect "connection refused");
     LogQueryError "http://localhost:8081" (FailedToConnect "connection refused");
     LogQueryAllFailed].
Proof. reflexivity. Qed.

End CoordinatorProofs.

(** * Further properties of the replica *)

Module ReplicaInvariants.
Import Replica.

(** ** After the end *)

Lemma step_ended_same a e : status a = "ended" -> st (step a e) = a.
Proof.
  intros He. destruct e as [r|m t|]; simpl.
  - destruct (parseBid r) as [[rsp l]|[name amount]] eqn:Hr.
    + by rewrite (ReplicaProofs.handleBid_refused _ _ _ _ Hr).
    + rewrite (ReplicaProofs.handleBid_parsed _ _ _ _ Hr).
      by destruct (ReplicaProofs.placeBid_placed a name amount).
  - apply ReplicaProofs.handleQuery_st.
  - destruct a; simpl in *. by subst.
Qed.

(** X1: once the auction has ended, no sequence of requests and timer
    firings changes any field of the state: bids are answered before the
    bidder is registered, queries only read, and closing again rewrites the
    same status. *)
Theorem ended_state_is_frozen a es :
  status a = "ended" -> final a es = a.
Proof.
  intros He. induction es as [|e es IH]; simpl; [done|].
  by rewrite (step_ended_same _ _ He).
Qed.

Lemma ended_state_is_frozen_witness :
  let a := final (auction 0) [EBid (bid_request "alice" (float64_of_int 100)); EEnd] in
  let es := [EBid (bid_request "bob" (float64_of_int 900)); EQuery "GET" 101; EEnd;
             EBid (bid_request "carol" (float64_of_int 5))] in
  status a = "ended" /\ final a es = a.
Proof.
  intros a es.
  assert (He : status a = "ended") by reflexivity.
  split; [exact He|]. exact (ended_state_is_frozen a es He).
Defined.

(** ** The answer to a query *)

(** X2: a GET on /query leaves the auction as it is and answers 200 with
    the current status, highestBid and highestBidder; the answer names a
    winner exactly when the status is "ended", and the winner is then
    highestBidder (the empty string when nobody has bid). *)
Theorem handleQuery_reports_state a elapsed :
  st (handleQuery a "GET" elapsed) = a /\
  exists m,
    resp (handleQuery a "GET" elapsed)
      = Some {| code := 200; payload := JsonValues m |} /\
    m !! "status" = Some (AString (status a)) /\
    m !! "highest_bid" = Some (AInt (highestBid a)) /\
    m !! "highest_bidder" = Some (AString (highestBidder a)) /\
    m !! "time_remaining" = Some (AInt (seconds (duration a) - elapsed)) /\
    m !! "winner" =
      (if String.eqb (status a) "ended"
       then Some (AString (highestBidder a)) else None).
Proof.
  split; [apply ReplicaProofs.handleQuery_st|].
  unfold handleQuery. simpl. eexists. split; [reflexivity|].
  destruct (String.eqb (status a) "ended"); repeat split; reflexivity.
Qed.

(** ** Competing bids *)

Lemma after_bids_cons a name amount bids :
  after_bids a ((name, amount) :: bids)
    = after_bids (st (placeBid a name amount)) bids.
Proof. reflexivity. Qed.

Lemma foldr_max_start h v l :
  foldr Z.max (Z.max h v) l = Z.max v (foldr Z.max h l).
Proof. induction l as [|x l IH]; simpl; lia. Qed.

Lemma foldr_max_Permutation h l1 l2 :
  l1 ≡ₚ l2 -> foldr Z.max h l1 = foldr Z.max h l2.
Proof. induction 1; simpl; lia. Qed.

Lemma after_bids_highestBid bids : forall a,
  status a <> "ended" ->
  highestBid (after_bids a bids) = foldr Z.max (highestBid a) (amounts bids).
Proof.
  induction bids as [|[name amount] bids IH]; intros a He; [done|].
  rewrite after_bids_cons, IH by by rewrite ReplicaProofs.placeBid_status.
  rewrite (ReplicaProofs.placeBid_highestBid _ _ _ He). simpl.
  rewrite <- foldr_max_start. f_equal. case_decide; lia.
Qed.

(** X3: while the auction is ongoing, the highestBid left by a sequence
    of bids is the greatest of the starting highestBid and all the
    truncated amounts, so it does not depend on the order in which the
    bids got the lock. *)
Theorem highestBid_is_order_independent a bids bids' :
  status a <> "ended" ->
  bids ≡ₚ bids' ->
  highestBid (after_bids a bids) = foldr Z.max (highestBid a) (amounts bids) /\
  highestBid (after_bids a bids') = highestBid (after_bids a bids).
Proof.
  intros He Hp. rewrite !after_bids_highestBid by done. split; [done|].
  apply foldr_max_Permutation. unfold amounts. by rewrite Hp.
Qed.

Lemma highestBid_is_order_independent_witness :
  let a := auction 0 in
  let bids := [("alice", float64_of_int 100); ("bob", float64_of_int 150);
               ("carol", float64_of_int 150)] in
  let bids' := [("carol", float64_of_int 150); ("alice", float64_of_int 100);
                ("bob", float64_of_int 150)] in
  highestBid (after_bids a bids') = highestBid (after_bids a bids) /\
  highestBidder (after_bids a bids) = "bob" /\
  highestBidder (after_bids a bids') = "carol".
Proof.
  intros a bids bids'. split; [|split; reflexivity].
  apply (highestBid_is_order_independent a bids bids').
  - vm_compute. discriminate.
  - subst bids bids'. symmetry.
    etrans; [apply Permutation_cons_append|]. done.
Defined.

End ReplicaInvariants.

(** * Properties of the operator console *)

Module ConsoleProofs.
Import Coordinator Console.

Lemma Split_nonempty s : exists field fields, Split s = field :: fields.
Proof.
  induction s as [|c s (field & fields & IH)]; simpl; [by eauto|].
  destruct (Ascii.eqb c " "); [by eauto|]. rewrite IH. by eauto.
Qed.

Section Loop.
Context {World : Type} `{Network World}.

Lemma command_never_invalid_input c input (w : World) :
  Forall (fun o => o <> Println "Invalid input. Try again.")
    (command c input w).1.2.
Proof.
  assert (Hdid : forall tr : list effect,
            Forall (fun o => o <> Println "Invalid input. Try again.")
              (Did <$> tr)).
  { intros tr. apply Forall_fmap, Forall_forall. by intros e _. }
  unfold command. destruct (Split_nonempty input) as (arg0 & fields & ->).
  destruct (String.eqb arg0 "1").
  - destruct fields as [|name [|arg [|extra fields]]];
      try by repeat constructor.
    destruct (Atoi arg) as [amount|]; [|by repeat constructor].
    unfold call. simpl. constructor; [done|apply Hdid].
  - destruct (String.eqb arg0 "2").
    + unfold call. simpl. constructor; [done|apply Hdid].
    + destruct (String.eqb arg0 "0"); by repeat constructor.
Qed.

(** X4: strings.Split never returns an empty slice, so the test of line
    119 never holds: whatever the operator types, and whatever happens to
    the log file, "Invalid input. Try again." is never printed. *)
Theorem invalid_input_never_printed opened inputs (w : World) :
  Forall (fun o => o <> Println "Invalid input. Try again.")
    (main opened inputs w).1.
Proof.
  unfold main. destruct opened as [err|]; [by repeat constructor|].
  revert w. induction inputs as [|input inputs IH]; intros w; simpl.
  - by repeat constructor.
  - pose proof (command_never_invalid_input coordinator input w) as Hc.
    destruct (command coordinator input w) as [[[] out] w']; simpl in *.
    + specialize (IH w'). destruct (console coordinator inputs w') as [rest w''].
      simpl in *. repeat (constructor; [done|]). by apply Forall_app.
    + repeat (constructor; [done|]). done.
Qed.

End Loop.

End ConsoleProofs.
